(** * libbitcoin network seeder: src/network/seeder.cpp

    A shallow embedding of [libbitcoin::network::seeder].  The seeder is a
    chain of bound callbacks; every member function is embedded as a
    computation over an explicit [world] (the host pool's size, the shared
    counters of the completion barriers and the ordered trace of every call
    made on an external collaborator).  A [std::function] value is embedded
    as the data it binds ([seeded_handler]) and run by [invoke]. *)

From stdpp Require Import base decidable numbers list strings.

Open Scope string_scope.
Open Scope list_scope.

(** ** Error codes *)

Module error.

(** Modelled from the spec: bitcoin/error.hpp is not among the sources.
    The seeder names three members of the enum, [success],
    [operation_failed] and [channel_stopped]; [other n] stands for every
    further member (connection, handshake, send and receive errors). *)
Inductive error_code_t :=
| success
| operation_failed
| channel_stopped
| other (n : nat).

#[global] Instance error_code_t_eq_dec : EqDecision error_code_t.
Proof. solve_decision. Defined.

End error.

(** [std::error_code]: one value of the enum. *)
Abbreviation error_code := error.error_code_t (only parsing).

(** [explicit operator bool] of [std::error_code]: true unless the code is
    [error::success]. *)
Definition to_bool (ec : error_code) : bool :=
  match ec with
  | error.success => false
  | _ => true
  end.

(** ** Data *)

Module config.

(** [config::endpoint]: a seed's host name and port. *)
Record endpoint := { host : string; port : Z }.

#[global] Instance endpoint_eq_dec : EqDecision endpoint.
Proof. solve_decision. Defined.

End config.

(** [channel_ptr]: the identity of one established channel. *)
Abbreviation channel_ptr := nat (only parsing).

(** One entry of an address message; declared outside this file, only its
    identity matters to the seeder. *)
Record network_address_type := { ip : string; address_port : Z }.

#[global] Instance network_address_type_eq_dec : EqDecision network_address_type.
Proof. solve_decision. Defined.

(** [address_type]: the address message of the wire protocol. *)
Record address_type := { addresses : list network_address_type }.

#[global] Instance address_type_eq_dec : EqDecision address_type.
Proof. solve_decision. Defined.

(** [seeded_handler] is [std::function<void(const std::error_code&)>].  The
    values that reach the seeder are: an empty function, the caller's own
    completion handler, [std::bind(&seeder::handle_synced, this, _1,
    host_count, handle_seeded)], and the dispatcher returned by
    [async_parallel], which shares one counter among its copies. *)
Inductive seeded_handler :=
| null_handler
| caller_handler
| bind_handle_synced (host_start_count : nat) (handle_seeded : seeded_handler)
| async_parallel_dispatch (counter : nat) (clearance_count : nat)
    (handler : seeded_handler).

#[global] Instance seeded_handler_eq_dec : EqDecision seeded_handler.
Proof. solve_decision. Defined.

(** [callable h]: the function object is not empty. *)
Definition callable (h : seeded_handler) : bool :=
  match h with
  | null_handler => false
  | _ => true
  end.

(** ** Observable effects *)

Inductive log_level := log_info | log_debug | log_error.

#[global] Instance log_level_eq_dec : EqDecision log_level.
Proof. solve_decision. Defined.

(** The lines written to [LOG_PROTOCOL], with the values streamed in. *)
Inductive log_message :=
| no_seeds_configured
| contacting_seed (seed : config.endpoint)
| failure_contacting_seed (seed : config.endpoint) (ec : error_code)
| get_seed_as (seed : config.endpoint) (node : channel_ptr)
| seed_channel_stopped (seed : config.endpoint) (ec : error_code)
| failure_in_handshake (node : channel_ptr) (ec : error_code)
| failure_sending_get_address (seed : config.endpoint) (ec : error_code)
| failure_getting_addresses (seed : config.endpoint) (ec : error_code)
| storing_addresses (seed : config.endpoint) (count : nat)
| failure_storing_address (ec : error_code).

#[global] Instance log_message_eq_dec : EqDecision log_message.
Proof. solve_decision. Defined.

(** Every call the seeder makes on something it does not own, with the
    arguments bound into the callback it hands over. *)
Inductive action :=
| act_log (level : log_level) (message : log_message)
| act_seeded (ec : error_code)
| act_connect (seed : config.endpoint) (handle_seeded : seeded_handler)
| act_subscribe_stop (node : channel_ptr) (seed : config.endpoint)
    (handle_seeded : seeded_handler)
| act_handshake_ready (node : channel_ptr) (seed : config.endpoint)
    (handle_seeded : seeded_handler) (relay : bool)
| act_start (node : channel_ptr)
| act_subscribe_address (node : channel_ptr) (seed : config.endpoint)
    (handle_seeded : seeded_handler)
| act_send_get_address (node : channel_ptr) (seed : config.endpoint)
    (handle_seeded : seeded_handler)
| act_store (address : network_address_type)
| act_stop (node : channel_ptr) (ec : error_code).

#[global] Instance action_eq_dec : EqDecision action.
Proof. solve_decision. Defined.

(** ** State *)

(** The state shared by the copies of one [async_parallel] dispatcher. *)
Record barrier := { arrived : nat; first_error : error_code }.

Record world := {
  host_pool_size : nat;        (* host_pool_.size() *)
  counters : list barrier;     (* one per async_parallel call *)
  trace : list action          (* oldest first *)
}.

Definition fresh (hosts : nat) : world :=
  {| host_pool_size := hosts; counters := []; trace := [] |}.

Inductive fault :=
| assertion_failed (message : string)
| bad_function_call.

Inductive result (A : Type) :=
| ok (a : A) (w : world)
| raised (f : fault).

Arguments ok {A} a w.
Arguments raised {A} f.

(** Computations: read and update the world, or stop with a fault. *)
Definition M (A : Type) : Type := world -> result A.

#[global] Instance M_ret : MRet M := fun A a w => ok a w.

#[global] Instance M_bind : MBind M := fun A B k c w =>
  match c w with
  | ok a w' => k a w'
  | raised f => raised f
  end.

Definition raise {A} (f : fault) : M A := fun _ => raised f.

Definition emit (a : action) : M unit := fun w =>
  ok tt {| host_pool_size := host_pool_size w;
           counters := counters w;
           trace := trace w ++ [a] |}.

Definition size_ : M nat := fun w => ok (host_pool_size w) w.

Definition log (level : log_level) (message : log_message) : M unit :=
  emit (act_log level message).

(** [BITCOIN_ASSERT_MSG] (bitcoin/utility/assert.hpp, not among the
    sources), taken as the checking build's assertion. *)
Definition BITCOIN_ASSERT_MSG (expression : bool) (text : string) : M unit :=
  if expression then mret tt else raise (assertion_failed text).

(** ** The completion barrier *)

Definition set_counter (counter : nat) (b : barrier) (w : world) : world :=
  {| host_pool_size := host_pool_size w;
     counters := <[counter := b]> (counters w);
     trace := trace w |}.

(** Modelled from the spec: bitcoin/utility/async_parallel.hpp is not among
    the sources.  One arrival: after completion a no-op; otherwise count it,
    remember the first error seen that is not success, and on the arrival
    that brings the count to [clearance_count] call [handler] with it. *)
Definition signal (counter clearance_count : nat)
    (handler : error_code -> M unit) (ec : error_code) : M unit := fun w =>
  match counters w !! counter with
  | None => ok tt w
  | Some b =>
      if decide (clearance_count <= arrived b) then ok tt w
      else
        let first := if to_bool (first_error b) then first_error b else ec in
        let b' := {| arrived := S (arrived b); first_error := first |} in
        if decide (arrived b' = clearance_count)
        then handler first (set_counter counter b' w)
        else ok tt (set_counter counter b' w)
  end.

(** [seeder::handle_synced], with the call of [handle_seeded] as a
    parameter. *)
Definition handle_synced_to (handle_seeded : error_code -> M unit)
    (ec : error_code) (host_start_count : nat) : M unit :=
  if to_bool ec then handle_seeded ec
  else
    size ← size_;
    let success := bool_decide (host_start_count < size) in
    let result :=
      if success then error.success else error.operation_failed in
    handle_seeded result.

(** Calling a [seeded_handler]. *)
Fixpoint invoke (h : seeded_handler) (ec : error_code) {struct h} : M unit :=
  match h with
  | null_handler => raise bad_function_call
  | caller_handler => emit (act_seeded ec)
  | bind_handle_synced host_start_count handle_seeded =>
      handle_synced_to (invoke handle_seeded) ec host_start_count
  | async_parallel_dispatch counter clearance_count handler =>
      signal counter clearance_count (invoke handler) ec
  end.

(** Modelled from the spec: bitcoin/utility/async_parallel.hpp is not among
    the sources.  Construction allocates the shared state; a barrier that
    requires nothing calls [handler] at once, with success. *)
Definition async_parallel (handler : seeded_handler) (clearance_count : nat)
    : M seeded_handler := fun w =>
  let counter := length (counters w) in
  let w' := {| host_pool_size := host_pool_size w;
               counters := counters w ++
                 [{| arrived := 0; first_error := error.success |}];
               trace := trace w |} in
  let dispatch := async_parallel_dispatch counter clearance_count handler in
  if decide (clearance_count = 0)
  then (invoke handler error.success;; mret dispatch) w'
  else ok dispatch w'.

(** ** The seeder *)

(** The members of [seeder] that are data; [strand_], [host_pool_],
    [handshake_] and [network_] refer to collaborators, whose calls are
    recorded in the trace. *)
Record seeder := { seeds_ : list config.endpoint }.

(** [seeder::defaults], as built without [ENABLE_TESTNET]. *)
Definition defaults : list config.endpoint :=
  [ {| config.host := "seed.bitnodes.io"; config.port := 8333 |};
    {| config.host := "seed.bitcoinstats.com"; config.port := 8333 |};
    {| config.host := "seed.bitcoin.sipa.be"; config.port := 8333 |};
    {| config.host := "dnsseed.bluematt.me"; config.port := 8333 |};
    {| config.host := "seed.bitcoin.jonasschnelli.ch"; config.port := 8333 |};
    {| config.host := "dnsseed.bitcoin.dashjr.org"; config.port := 8333 |} ].

(** [seeds_.empty()] *)
Definition empty {A} (l : list A) : bool :=
  match l with
  | [] => true
  | _ :: _ => false
  end.

(** A range-based [for]. *)
Fixpoint for_each {A} (l : list A) (body : A -> M unit) : M unit :=
  match l with
  | [] => mret tt
  | x :: rest => body x;; for_each rest body
  end.

Definition handle_synced (ec : error_code) (host_start_count : nat)
    (handle_seeded : seeded_handler) : M unit :=
  handle_synced_to (invoke handle_seeded) ec host_start_count.

Definition connect (seed : config.endpoint) (handle_seeded : seeded_handler)
    : M unit :=
  log log_info (contacting_seed seed);;
  emit (act_connect seed handle_seeded).

Definition start (this : seeder) (handle_seeded : seeded_handler) : M unit :=
  BITCOIN_ASSERT_MSG (callable handle_seeded) "null completion handler";;
  (if empty (seeds_ this)
   then log log_info no_seeds_configured;;
        invoke handle_seeded error.success
   else mret tt);;
  let seed_count := length (seeds_ this) in
  host_count ← size_;
  let synchronized := bind_handle_synced host_count handle_seeded in
  completion_callback ← async_parallel synchronized seed_count;
  for_each (seeds_ this) (fun seed => connect seed completion_callback).

Definition handle_connected (ec : error_code) (node : channel_ptr)
    (seed : config.endpoint) (handle_seeded : seeded_handler) : M unit :=
  if to_bool ec
  then log log_info (failure_contacting_seed seed ec);;
       invoke handle_seeded error.success
  else
    log log_info (get_seed_as seed node);;
    emit (act_subscribe_stop node seed handle_seeded);;
    let relay := false in
    emit (act_handshake_ready node seed handle_seeded relay);;
    emit (act_start node).

Definition handle_stop (ec : error_code) (seed : config.endpoint)
    (handle_seeded : seeded_handler) : M unit :=
  if to_bool ec
  then (if decide (ec <> error.channel_stopped)
        then log log_debug (seed_channel_stopped seed ec)
        else mret tt);;
       invoke handle_seeded error.success
  else mret tt.

Definition handle_handshake (ec : error_code) (node : channel_ptr)
    (seed : config.endpoint) (handle_seeded : seeded_handler) : M unit :=
  if to_bool ec
  then log log_debug (failure_in_handshake node ec)
  else
    emit (act_subscribe_address node seed handle_seeded);;
    emit (act_send_get_address node seed handle_seeded).

Definition handle_send (ec : error_code) (seed : config.endpoint)
    (handle_seeded : seeded_handler) : M unit :=
  if to_bool ec
  then log log_debug (failure_sending_get_address seed ec);;
       invoke handle_seeded error.success
  else mret tt.

Definition handle_store (ec : error_code) : M unit :=
  if to_bool ec
  then log log_error (failure_storing_address ec)
  else mret tt.

Definition handle_receive (ec : error_code) (message : address_type)
    (seed : config.endpoint) (node : channel_ptr)
    (handle_seeded : seeded_handler) : M unit :=
  if to_bool ec
  then log log_debug (failure_getting_addresses seed ec);;
       invoke handle_seeded error.success
  else
    log log_info (storing_addresses seed (length (addresses message)));;
    for_each (addresses message) (fun address => emit (act_store address));;
    invoke handle_seeded error.success;;
    emit (act_stop node error.channel_stopped).

(** ** The collaborators calling back *)

(** What the connector, a channel, the handshake or the host pool may do
    next: complete a callback with the arguments that were bound into it,
    or (the host pool) change size. *)
Inductive event :=
| connected (ec : error_code) (node : channel_ptr) (seed : config.endpoint)
    (handle_seeded : seeded_handler)
| stopped (ec : error_code) (node : channel_ptr) (seed : config.endpoint)
    (handle_seeded : seeded_handler)
| handshaken (ec : error_code) (node : channel_ptr) (seed : config.endpoint)
    (handle_seeded : seeded_handler)
| sent (ec : error_code) (node : channel_ptr) (seed : config.endpoint)
    (handle_seeded : seeded_handler)
| received (ec : error_code) (message : address_type)
    (seed : config.endpoint) (node : channel_ptr)
    (handle_seeded : seeded_handler)
| stored (ec : error_code) (address : network_address_type)
| hosts_changed (size : nat).

(** A callback can only be completed once the seeder has handed it over. *)
Definition registered (e : event) (t : list action) : bool :=
  match e with
  | connected _ _ seed h => bool_decide (act_connect seed h ∈ t)
  | stopped _ node seed h => bool_decide (act_subscribe_stop node seed h ∈ t)
  | handshaken _ node seed h =>
      bool_decide (act_handshake_ready node seed h false ∈ t)
  | sent _ node seed h => bool_decide (act_send_get_address node seed h ∈ t)
  | received _ _ seed node h =>
      bool_decide (act_subscribe_address node seed h ∈ t)
  | stored _ address => bool_decide (act_store address ∈ t)
  | hosts_changed _ => true
  end.

Definition set_hosts (size : nat) : M unit := fun w =>
  ok tt {| host_pool_size := size; counters := counters w; trace := trace w |}.

Definition handle (e : event) : M unit :=
  match e with
  | connected ec node seed h => handle_connected ec node seed h
  | stopped ec _ seed h => handle_stop ec seed h
  | handshaken ec node seed h => handle_handshake ec node seed h
  | sent ec _ seed h => handle_send ec seed h
  | received ec message seed node h => handle_receive ec message seed node h
  | stored ec _ => handle_store ec
  | hosts_changed size => set_hosts size
  end.

(** An event whose callback was never handed over cannot happen and is
    skipped. *)
Definition deliver (e : event) : M unit := fun w =>
  if registered e (trace w) then handle e w else ok tt w.

(** One seeding run: [start], then the collaborators' callbacks in the
    order given. *)
Definition seeding (this : seeder) (handle_seeded : seeded_handler)
    (events : list event) : M unit :=
  start this handle_seeded;;
  for_each events deliver.

(** The error codes the caller's completion handler was called with. *)
Definition seeded_of (t : list action) : list error_code :=
  omap (fun a => match a with act_seeded ec => Some ec | _ => None end) t.

(** The first error among [signals] that is not success, or success. *)
Definition first_failure (signals : list error_code) : error_code :=
  match filter (fun ec => to_bool ec = true) signals with
  | [] => error.success
  | ec :: _ => ec
  end.

(** Arrivals at a barrier, one after the other. *)
Definition signal_all (h : seeded_handler) (signals : list error_code)
    : M unit :=
  for_each signals (invoke h).

(** The world after further calls on the collaborators. *)
Definition extend (l : list action) (w : world) : world :=
  {| host_pool_size := host_pool_size w;
     counters := counters w;
     trace := trace w ++ l |}.

(** The shared state after one more arrival, as [signal] computes it. *)
Definition arrive (b : barrier) (ec : error_code) : barrier :=
  {| arrived := S (arrived b);
     first_error := if to_bool (first_error b) then first_error b else ec |}.

(** The same event with another handler bound into its callback. *)
Definition rebind (h : seeded_handler) (e : event) : event :=
  match e with
  | connected ec node seed _ => connected ec node seed h
  | stopped ec node seed _ => stopped ec node seed h
  | handshaken ec node seed _ => handshaken ec node seed h
  | sent ec node seed _ => sent ec node seed h
  | received ec message seed node _ => received ec message seed node h
  | stored ec address => stored ec address
  | hosts_changed size => hosts_changed size
  end.

(** The results a run may report for its seeds: success, or no new hosts. *)
Definition fine (ec : error_code) : Prop :=
  ec = error.success \/ ec = error.operation_failed.

(** An entry of the trace of a run whose completion callback is [cb]: every
    callback handed over binds [cb], and the caller has only been told
    [fine] results. *)
Definition harmless (cb : seeded_handler) (a : action) : Prop :=
  match a with
  | act_seeded ec => fine ec
  | act_connect _ h
  | act_subscribe_stop _ _ h
  | act_handshake_ready _ _ h _
  | act_subscribe_address _ _ h
  | act_send_get_address _ _ h => h = cb
  | _ => True
  end.

(** The invariant of a run: a harmless trace, and one barrier that has
    seen no error. *)
Record calm (cb : seeded_handler) (w : world) : Prop := {
  calm_trace : Forall (harmless cb) (trace w);
  calm_counter : exists b, counters w = [b] /\ first_error b = error.success
}.

(** ** Vocabulary of the run-level properties *)

(** The result [handle_synced] computes when the barrier reports no error:
    success when the host pool is now larger than at the start. *)
Definition verdict (host_start_count size : nat) : error_code :=
  if bool_decide (host_start_count < size)
  then error.success
  else error.operation_failed.

(** The calls [start] makes for its seeds, all binding [h]. *)
Definition launches (seeds : list config.endpoint) (h : seeded_handler)
    : list action :=
  flat_map (fun seed => [act_log log_info (contacting_seed seed);
                         act_connect seed h]) seeds.

(** Whether the completion of a callback counts as an arrival. *)
Definition arrives (e : event) : bool :=
  match e with
  | connected ec _ _ _ => to_bool ec
  | stopped ec _ _ _ => to_bool ec
  | handshaken _ _ _ _ => false
  | sent ec _ _ _ => to_bool ec
  | received _ _ _ _ _ => true
  | stored _ _ => false
  | hosts_changed _ => false
  end.

(** The stop requests among the entries of a trace. *)
Definition stops_of (t : list action) : list (nat * error_code) :=
  omap (fun a =>
          match a with act_stop node ec => Some (node, ec) | _ => None end) t.

(** The addresses handed to the host pool among the entries of a trace. *)
Definition stores_of (t : list action) : list network_address_type :=
  omap (fun a => match a with act_store address => Some address | _ => None end)
    t.

(** The connection requests among the entries of a trace. *)
Definition connects_of (t : list action)
    : list (config.endpoint * seeded_handler) :=
  omap (fun a =>
          match a with act_connect seed h => Some (seed, h) | _ => None end) t.

(** The stop request that completing a callback leads to. *)
Definition stop_after (e : event) : list (nat * error_code) :=
  match e with
  | received ec _ _ node _ =>
      if to_bool ec then [] else [(node, error.channel_stopped)]
  | _ => []
  end.

(** The addresses that completing a callback hands to the host pool. *)
Definition stored_by (e : event) : list network_address_type :=
  match e with
  | received ec message _ _ _ => if to_bool ec then [] else addresses message
  | _ => []
  end.

(** An entry that hands a callback over binds [cb]. *)
Definition bound (cb : seeded_handler) (a : action) : Prop :=
  match a with
  | act_connect _ h
  | act_subscribe_stop _ _ h
  | act_handshake_ready _ _ h _
  | act_subscribe_address _ _ h
  | act_send_get_address _ _ h => h = cb
  | _ => True
  end.

(** An entry of the trace that is not a call of the caller's handler. *)
Definition quiet (a : action) : Prop :=
  match a with
  | act_seeded _ => False
  | _ => True
  end.

(** A change of the host pool stays within [sizes]. *)
Definition pool_within (sizes : nat -> Prop) (e : event) : Prop :=
  match e with
  | hosts_changed size => sizes size
  | _ => True
  end.

(** The state of a run for [seed_count] seeds started at [hosts] hosts,
    while the host pool stays within [sizes]: every callback handed over
    binds the completion callback, the barrier has seen no error, and the
    caller has been told one result, computed from a size within [sizes],
    exactly if the barrier is full. *)
Record steady (seed_count hosts : nat) (sizes : nat -> Prop) (w : world)
    : Prop := {
  steady_trace :
    Forall (bound (async_parallel_dispatch 0 seed_count
                     (bind_handle_synced hosts caller_handler))) (trace w);
  steady_pool : sizes (host_pool_size w);
  steady_counter :
    exists b,
      counters w = [b] /\ first_error b = error.success /\
      ((arrived b < seed_count /\ seeded_of (trace w) = []) \/
       (seed_count <= arrived b /\
        exists size, sizes size /\
          seeded_of (trace w) = [verdict hosts size]))
}.

(** Every seed refuses the connection: seed [i] fails with code [i]. *)
Definition refusals (cb : seeded_handler) (seeds : list config.endpoint)
    (codes : list error_code) : list event :=
  zip_with (fun seed ec => connected ec 0 seed cb) seeds codes.

(** The log lines of the refusals. *)
Definition refusal_lines (seeds : list config.endpoint)
    (codes : list error_code) : list action :=
  zip_with (fun seed ec => act_log log_info (failure_contacting_seed seed ec))
    seeds codes.

(** The callback an event completes: the call by which the seeder handed
    it over. *)
Definition completes (e : event) : option action :=
  match e with
  | connected _ _ seed h => Some (act_connect seed h)
  | stopped _ node seed h => Some (act_subscribe_stop node seed h)
  | handshaken _ node seed h => Some (act_handshake_ready node seed h false)
  | sent _ node seed h => Some (act_send_get_address node seed h)
  | received _ _ seed node h => Some (act_subscribe_address node seed h)
  | stored _ address => Some (act_store address)
  | hosts_changed _ => None
  end.

(** The callbacks handed over in a trace, each of which a collaborator
    completes once. *)
Definition awaited (t : list action) : list action :=
  omap (fun a =>
          match a with
          | act_connect _ _
          | act_subscribe_stop _ _ _
          | act_handshake_ready _ _ _ _
          | act_subscribe_address _ _ _
          | act_send_get_address _ _ _
          | act_store _ => Some a
          | _ => None
          end) t.

(** ** Scenarios *)

Definition seedA : config.endpoint :=
  {| config.host := "seed.bitnodes.io"; config.port := 8333 |}.

Definition seedB : config.endpoint :=
  {| config.host := "seed.bitcoinstats.com"; config.port := 8333 |}.

(** The completion callback that [start] builds in a fresh world for
    [seed_count] seeds, [hosts] known hosts and the caller's handler. *)
Definition completion_callback (seed_count hosts : nat) : seeded_handler :=
  async_parallel_dispatch 0 seed_count
    (bind_handle_synced hosts caller_handler).

Definition callback1 (hosts : nat) : seeded_handler :=
  completion_callback 1 hosts.

(** The whole life of one seed's attempt that is lost: the connection is
    made, the handshake fails with [ec], and the channel reports its stop
    with the success code. *)
Definition dropped_attempt (seed : config.endpoint) (node : channel_ptr)
    (hosts : nat) (ec : error_code) : list event :=
  [connected error.success node seed (callback1 hosts);
   handshaken ec node seed (callback1 hosts);
   stopped error.success node seed (callback1 hosts)].

(** Two seeds: the first answers with one address, and the channel then
    reports the stop the seeder itself asked for; the second seed's
    connection is still being made. *)
Definition own_stop (hosts : nat) : list event :=
  let cb := completion_callback 2 hosts in
  [connected error.success 7 seedA cb;
   handshaken error.success 7 seedA cb;
   received error.success
     {| addresses := [{| ip := "10.0.0.1"; address_port := 8333 |}] |}
     seedA 7 cb;
   stopped error.channel_stopped 7 seedA cb].

(** * Properties *)

(** ** The monad *)

Lemma bind_ok {A B} (c : M A) (k : A -> M B) w a w' :
  c w = ok a w' -> (c ≫= k) w = k a w'.
Proof. intros E. unfold mbind, M_bind. now rewrite E. Qed.

Lemma bind_raised {A B} (c : M A) (k : A -> M B) w f :
  c w = raised f -> (c ≫= k) w = raised f.
Proof. intros E. unfold mbind, M_bind. now rewrite E. Qed.

Lemma extend_nil w : extend [] w = w.
Proof. destruct w. unfold extend. cbn. now rewrite app_nil_r. Qed.

Lemma extend_extend l1 l2 w : extend l2 (extend l1 w) = extend (l1 ++ l2) w.
Proof. unfold extend. cbn. now rewrite app_assoc. Qed.

Lemma emit_extend a w : emit a w = ok tt (extend [a] w).
Proof. reflexivity. Qed.

Lemma log_extend level message w :
  log level message w = ok tt (extend [act_log level message] w).
Proof. reflexivity. Qed.

Lemma for_each_emit {A} (f : A -> action) (l : list A) w :
  for_each l (fun x => emit (f x)) w = ok tt (extend (map f l) w).
Proof.
  revert w. induction l as [|x l IH]; intros w; cbn [for_each map].
  - now rewrite extend_nil.
  - rewrite (bind_ok _ _ w tt (extend [f x] w)) by apply emit_extend.
    rewrite IH. now rewrite extend_extend.
Qed.

Lemma to_bool_true ec : to_bool ec = true <-> ec <> error.success.
Proof. destruct ec; cbn; split; congruence. Qed.

Lemma to_bool_false ec : to_bool ec = false <-> ec = error.success.
Proof. destruct ec; cbn; split; congruence. Qed.

(** A [seeded_handler] never fails an assertion: the only fault of a call
    is the empty function's. *)
Lemma invoke_fault h : forall ec w f,
  invoke h ec w = raised f -> f = bad_function_call.
Proof.
  induction h as [| |hosts h IH|counter n h IH]; intros ec w f; cbn [invoke].
  - unfold raise. congruence.
  - rewrite emit_extend. congruence.
  - unfold handle_synced_to. destruct (to_bool ec); [apply IH|].
    unfold mbind, M_bind, size_. apply IH.
  - unfold signal. destruct (counters w !! counter) as [b|]; [|congruence].
    destruct (decide (n <= arrived b)); [congruence|].
    cbn [arrived]. destruct (decide (S (arrived b) = n)); [apply IH|congruence].
Qed.

(** ** [seeder::handle_synced] *)

(** C5: a barrier error is handed on unchanged; without one the result is
    success when the host pool is now strictly larger than at the start of
    the run, and [error::operation_failed] when it is not. *)
Theorem handle_synced_aggregate ec host_start_count h w :
  exists r,
    handle_synced ec host_start_count h w = invoke h r w /\
    (ec <> error.success -> r = ec) /\
    (ec = error.success ->
       (host_start_count < host_pool_size w <-> r = error.success) /\
       (host_pool_size w <= host_start_count <->
          r = error.operation_failed)).
Proof.
  unfold handle_synced, handle_synced_to.
  destruct (to_bool ec) eqn:E.
  - exists ec. split; [reflexivity|]. apply to_bool_true in E.
    split; [reflexivity|contradiction].
  - apply to_bool_false in E. subst ec.
    unfold mbind, M_bind, size_.
    destruct (bool_decide (host_start_count < host_pool_size w)) eqn:D.
    + apply bool_decide_eq_true in D. exists error.success.
      repeat split; auto; try lia; try congruence.
    + apply bool_decide_eq_false in D. exists error.operation_failed.
      repeat split; auto; try lia; try congruence.
Qed.

(** ** [seeder::handle_stop] *)

(** C10: when the channel's stop is reported with the success code,
    [handle_stop] does nothing: no log line, no call of [handle_seeded]. *)
Theorem handle_stop_success_is_silent seed h w :
  handle_stop error.success seed h w = ok tt w.
Proof. reflexivity. Qed.

(** C4: [handle_stop] run with [error::channel_stopped], the code of the
    seeder's own [node->stop], skips the log line only and calls
    [handle_seeded] with success all the same; any other error is logged and
    signalled too. *)
Theorem handle_stop_channel_stopped_signals :
  (forall seed h w,
     handle_stop error.channel_stopped seed h w = invoke h error.success w) /\
  (forall n seed h w,
     handle_stop (error.other n) seed h w =
       invoke h error.success
         (extend
            [act_log log_debug (seed_channel_stopped seed (error.other n))]
            w)) /\
  (exists w,
     seeding {| seeds_ := [seedA; seedB] |} caller_handler (own_stop 5)
       (fresh 5) = ok tt w /\
     counters w = [{| arrived := 2; first_error := error.success |}] /\
     seeded_of (trace w) = [error.operation_failed]).
Proof.
  split; [reflexivity|]. split; [reflexivity|].
  eexists. split; [vm_compute; reflexivity|].
  repeat split; vm_compute; reflexivity.
Qed.

(** ** [seeder::handle_handshake] *)

(** C2: on a failed handshake [handle_handshake] writes its log line and
    returns; [handle_seeded] is not called, whatever it is bound to. *)
Theorem handle_handshake_failure_is_dropped ec node seed h w :
  ec <> error.success ->
  handle_handshake ec node seed h w =
    ok tt (extend [act_log log_debug (failure_in_handshake node ec)] w).
Proof.
  intros E. apply to_bool_true in E. unfold handle_handshake. now rewrite E.
Qed.

Lemma handle_handshake_failure_is_dropped_witness :
  error.other 3 <> error.success /\
  handle_handshake (error.other 3) 7 seedA (callback1 5) (fresh 5) =
    ok tt (extend
      [act_log log_debug (failure_in_handshake 7 (error.other 3))] (fresh 5)).
Proof.
  split; [discriminate|].
  apply (handle_handshake_failure_is_dropped (error.other 3) 7 seedA
           (callback1 5) (fresh 5)).
  discriminate.
Defined.

(** ** [seeder::handle_receive] and [seeder::handle_store] *)

(** C6: [handle_receive] calls [handle_seeded] once, with success, on a
    failed and on a successful receive alike; on success it first hands one
    store per address of the message to the host pool and afterwards asks
    the channel to stop.  [handle_store] only ever writes a log line. *)
Theorem handle_receive_signals_once ec message seed node h w :
  handle_receive ec message seed node h w =
    (if to_bool ec
     then invoke h error.success
            (extend [act_log log_debug (failure_getting_addresses seed ec)] w)
     else (invoke h error.success;;
           emit (act_stop node error.channel_stopped))
            (extend
               (act_log log_info
                  (storing_addresses seed (length (addresses message)))
                :: map act_store (addresses message)) w)) /\
  forall ec' w',
    handle_store ec' w' =
      ok tt (extend
        (if to_bool ec'
         then [act_log log_error (failure_storing_address ec')]
         else []) w').
Proof.
  split.
  - unfold handle_receive. destruct (to_bool ec); [reflexivity|].
    erewrite bind_ok by apply log_extend.
    erewrite bind_ok by apply for_each_emit.
    now rewrite extend_extend.
  - intros ec' w'. unfold handle_store. destruct (to_bool ec').
    + apply log_extend.
    + now rewrite extend_nil.
Qed.

(** ** [seeder::start] *)

Lemma lt_irrefl_decide (n : nat) : bool_decide (n < n) = false.
Proof. apply bool_decide_eq_false. lia. Qed.

Lemma start_empty w :
  start {| seeds_ := [] |} caller_handler w =
    ok tt
      {| host_pool_size := host_pool_size w;
         counters := counters w ++
           [{| arrived := 0; first_error := error.success |}];
         trace := trace w ++
           [act_log log_info no_seeds_configured;
            act_seeded error.success;
            act_seeded error.operation_failed] |}.
Proof.
  unfold start, async_parallel, mbind, M_bind, mret, M_ret, size_.
  cbn. unfold mbind, M_bind, mret, M_ret, size_, emit. cbn.
  rewrite lt_irrefl_decide. cbn.
  now rewrite <- !app_assoc.
Qed.

(** C3: with no seeds configured [start] reports success and then, for want
    of a [return], goes on to build and start a barrier of size zero, whose
    callback reports a second result. *)
Theorem start_empty_builds_barrier w :
  exists w',
    start {| seeds_ := [] |} caller_handler w = ok tt w' /\
    counters w' =
      counters w ++ [{| arrived := 0; first_error := error.success |}] /\
    trace w' = trace w ++
      [act_log log_info no_seeds_configured;
       act_seeded error.success;
       act_seeded error.operation_failed].
Proof. eexists. split; [apply start_empty|]. split; reflexivity. Qed.

Lemma seeded_of_app l1 l2 : seeded_of (l1 ++ l2) = seeded_of l1 ++ seeded_of l2.
Proof. apply omap_app. Qed.

Lemma connect_extend seed h w :
  connect seed h w =
    ok tt (extend [act_log log_info (contacting_seed seed);
                   act_connect seed h] w).
Proof.
  unfold connect. erewrite bind_ok by apply log_extend.
  rewrite emit_extend. now rewrite extend_extend.
Qed.

Lemma for_each_connect_ok seeds h w :
  exists w', for_each seeds (fun seed => connect seed h) w = ok tt w'.
Proof.
  revert w. induction seeds as [|seed seeds IH]; intros w; cbn [for_each].
  - eexists. reflexivity.
  - destruct (IH (extend [act_log log_info (contacting_seed seed);
                           act_connect seed h] w)) as [w' E].
    exists w'. erewrite bind_ok by apply connect_extend. exact E.
Qed.

Lemma async_parallel_fault h n w f :
  async_parallel h n w = raised f -> f = bad_function_call.
Proof.
  unfold async_parallel. destruct (decide (n = 0)); [|congruence].
  unfold mbind, M_bind.
  match goal with |- context [invoke h error.success ?w0] =>
    destruct (invoke h error.success w0) eqn:E end.
  - unfold mret, M_ret. congruence.
  - intros [= <-]. eapply invoke_fault, E.
Qed.

Lemma start_fault this h w f :
  callable h = true -> start this h w = raised f -> f = bad_function_call.
Proof.
  intros C. unfold start. rewrite C. cbn [BITCOIN_ASSERT_MSG].
  unfold mbind at 1, M_bind at 1, mret at 1, M_ret at 1.
  unfold mbind at 1, M_bind at 1.
  destruct (empty (seeds_ this)).
  - erewrite bind_ok by apply log_extend.
    match goal with |- context [invoke h error.success ?w0] =>
      destruct (invoke h error.success w0) as [[] w1|f1] eqn:E end.
    + unfold mbind, M_bind, size_.
      destruct (async_parallel _ _ w1) as [cb w2|f2] eqn:A.
      * destruct (for_each_connect_ok (seeds_ this) cb w2) as [w3 ->].
        congruence.
      * intros [= <-]. eapply async_parallel_fault, A.
    + intros [= <-]. eapply invoke_fault, E.
  - unfold mret, M_ret, mbind, M_bind, size_.
    destruct (async_parallel _ _ w) as [cb w2|f2] eqn:A.
    + destruct (for_each_connect_ok (seeds_ this) cb w2) as [w3 ->].
      congruence.
    + intros [= <-]. eapply async_parallel_fault, A.
Qed.

(** C9: [start] asserts on entry that its handler is callable: with an
    empty function it stops at the assertion, and with a callable one the
    assertion never fails. *)
Theorem start_asserts_handler this h w :
  callable h = true ->
  (forall text, start this h w <> raised (assertion_failed text)) /\
  start this null_handler w =
    raised (assertion_failed "null completion handler").
Proof.
  intros C. split; [|reflexivity].
  intros text E. apply (start_fault _ _ _ _ C) in E. discriminate.
Qed.

Lemma start_asserts_handler_witness :
  callable caller_handler = true /\
  (forall text,
     start {| seeds_ := [seedA; seedB] |} caller_handler (fresh 5)
       <> raised (assertion_failed text)) /\
  start {| seeds_ := [seedA; seedB] |} null_handler (fresh 5) =
    raised (assertion_failed "null completion handler").
Proof.
  split; [reflexivity|].
  apply (start_asserts_handler {| seeds_ := [seedA; seedB] |} caller_handler
           (fresh 5)).
  reflexivity.
Defined.

(** ** The completion barrier *)

Section Barrier.

Variables (counter clearance_count : nat).
Variable handler : error_code -> M unit.

Lemma signal_done w b ec :
  counters w !! counter = Some b ->
  clearance_count <= arrived b ->
  signal counter clearance_count handler ec w = ok tt w.
Proof.
  intros L D. unfold signal. rewrite L.
  destruct (decide (clearance_count <= arrived b)); [reflexivity|lia].
Qed.

Lemma signal_pending w b ec :
  counters w !! counter = Some b ->
  S (arrived b) < clearance_count ->
  signal counter clearance_count handler ec w =
    ok tt (set_counter counter (arrive b ec) w).
Proof.
  intros L D. unfold signal. rewrite L.
  destruct (decide (clearance_count <= arrived b)); [lia|].
  cbn [arrived]. destruct (decide (S (arrived b) = clearance_count)); [lia|].
  reflexivity.
Qed.

Lemma signal_last w b ec :
  counters w !! counter = Some b ->
  S (arrived b) = clearance_count ->
  signal counter clearance_count handler ec w =
    handler (first_error (arrive b ec))
      (set_counter counter (arrive b ec) w).
Proof.
  intros L D. unfold signal. rewrite L.
  destruct (decide (clearance_count <= arrived b)); [lia|].
  cbn [arrived]. destruct (decide (S (arrived b) = clearance_count)); [|lia].
  reflexivity.
Qed.

Lemma set_counter_lookup w b b' :
  counters w !! counter = Some b ->
  counters (set_counter counter b' w) !! counter = Some b'.
Proof.
  intros L. cbn [set_counter counters].
  apply list_lookup_insert_eq. eapply lookup_lt_Some, L.
Qed.

End Barrier.

Lemma first_failure_cons ec l :
  first_failure (ec :: l) = if to_bool ec then ec else first_failure l.
Proof.
  unfold first_failure. rewrite filter_cons.
  destruct (decide (to_bool ec = true)) as [E|E].
  - now rewrite E.
  - apply not_true_is_false in E. now rewrite E.
Qed.

(** After completion every further arrival is a no-op. *)
Lemma signal_all_done counter n h signals : forall w b,
  counters w !! counter = Some b ->
  n <= arrived b ->
  signal_all (async_parallel_dispatch counter n h) signals w = ok tt w.
Proof.
  unfold signal_all.
  induction signals as [|ec signals IH]; intros w b L D; cbn [for_each].
  - reflexivity.
  - erewrite bind_ok; [eapply IH; eassumption|].
    cbn [invoke]. eapply signal_done; eassumption.
Qed.

(** A barrier that is still waiting calls back on the arrival that fills
    it, once, with the first error it has seen. *)
Lemma signal_all_pending counter n signals : forall w b,
  counters w !! counter = Some b ->
  arrived b < n ->
  exists w',
    signal_all (async_parallel_dispatch counter n caller_handler) signals w
      = ok tt w' /\
    trace w' = trace w ++
      (if decide (n - arrived b <= length signals)
       then [act_seeded
               (if to_bool (first_error b) then first_error b
                else first_failure (take (n - arrived b) signals))]
       else []).
Proof.
  unfold signal_all.
  induction signals as [|ec signals IH]; intros w b L D; cbn [for_each].
  - exists w. split; [reflexivity|].
    destruct (decide (n - arrived b <= length [])) as [H|H];
      [cbn in H; lia|]. now rewrite app_nil_r.
  - destruct (decide (S (arrived b) = n)) as [Last|More].
    + exists (extend [act_seeded (first_error (arrive b ec))]
                (set_counter counter (arrive b ec) w)).
      split.
      * erewrite bind_ok.
        -- eapply (signal_all_done counter n caller_handler signals).
           ++ cbn [extend counters]. eapply set_counter_lookup, L.
           ++ cbn [arrive arrived]. lia.
        -- cbn [invoke]. erewrite signal_last by eassumption.
           apply emit_extend.
      * cbn [extend set_counter trace]. f_equal.
        destruct (decide (n - arrived b <= length (ec :: signals))) as [H|H];
          [|cbn in H; lia].
        replace (n - arrived b) with 1 by lia.
        cbn [take arrive first_error]. rewrite first_failure_cons.
        destruct (to_bool (first_error b)); [reflexivity|].
        destruct (to_bool ec) eqn:E; [reflexivity|].
        apply to_bool_false in E. now subst ec.
    + destruct (IH (set_counter counter (arrive b ec) w) (arrive b ec))
        as [w' [R T]].
      * eapply set_counter_lookup, L.
      * cbn [arrive arrived]. lia.
      * exists w'. split.
        -- erewrite bind_ok; [exact R|].
           cbn [invoke]. eapply signal_pending; [eassumption|lia].
        -- rewrite T. cbn [set_counter trace arrive arrived first_error].
           f_equal. cbn [length].
           replace (n - arrived b) with (S (n - S (arrived b))) by lia.
           destruct (decide (n - S (arrived b) <= length signals));
             destruct (decide (S (n - S (arrived b)) <= S (length signals)));
             try lia; [|reflexivity].
           cbn [take]. rewrite first_failure_cons.
           destruct (to_bool (first_error b)) eqn:F; cbv iota.
           ++ now rewrite F.
           ++ destruct (to_bool ec); reflexivity.
Qed.

(** C8: a barrier built for [n] arrivals calls its final callback exactly
    once, on the [n]-th arrival (at construction when [n] is zero), with the
    first error among the signals that is not success, or success; fewer
    arrivals leave it waiting and later ones change nothing. *)
Theorem barrier_fires_once n signals w :
  exists cb w0 w',
    async_parallel caller_handler n w = ok cb w0 /\
    signal_all cb signals w0 = ok tt w' /\
    seeded_of (trace w') = seeded_of (trace w) ++
      (if decide (n <= length signals)
       then [first_failure (take n signals)]
       else []).
Proof.
  unfold async_parallel.
  set (b0 := {| arrived := 0; first_error := error.success |}).
  set (w1 := {| host_pool_size := host_pool_size w;
                counters := counters w ++ [b0];
                trace := trace w |}).
  assert (L : counters w1 !! length (counters w) = Some b0).
  { cbn [w1 counters]. rewrite lookup_app_r by lia.
    now rewrite Nat.sub_diag. }
  destruct (decide (n = 0)) as [->|N].
  - exists (async_parallel_dispatch (length (counters w)) 0 caller_handler),
      (extend [act_seeded error.success] w1),
      (extend [act_seeded error.success] w1).
    split; [reflexivity|]. split.
    + eapply signal_all_done; [exact L|cbn; lia].
    + cbn [extend trace w1]. rewrite seeded_of_app.
      destruct (decide (0 <= length signals)); [|lia]. reflexivity.
  - destruct (signal_all_pending (length (counters w)) n signals w1 b0 L)
      as [w' [R T]]; [cbn; lia|].
    exists (async_parallel_dispatch (length (counters w)) n caller_handler),
      w1, w'.
    split; [reflexivity|]. split; [exact R|].
    rewrite T. rewrite seeded_of_app. cbn [w1 trace b0 arrived first_error].
    rewrite Nat.sub_0_r. cbn [to_bool].
    destruct (decide (n <= length signals)); reflexivity.
Qed.

(** ** Seed errors never reach the result *)

(** Run the leading calls that only add to the trace. *)
Ltac emits :=
  repeat (erewrite bind_ok by first [apply log_extend | apply emit_extend]);
  try rewrite emit_extend; try rewrite log_extend.

Section Run.

Variables (seed_count hosts : nat).

Local Abbreviation cb := (completion_callback seed_count hosts).

Lemma calm_extend l w :
  calm cb w -> Forall (harmless cb) l -> calm cb (extend l w).
Proof.
  intros [T C] H. split; [|exact C].
  cbn [extend trace]. apply Forall_app. now split.
Qed.

Lemma invoke_completion_calm w :
  calm cb w ->
  exists w', invoke cb error.success w = ok tt w' /\ calm cb w'.
Proof.
  intros [T [b [C F]]].
  assert (L : counters w !! 0 = Some b) by now rewrite C.
  assert (A : arrive b error.success =
              {| arrived := S (arrived b); first_error := error.success |}).
  { unfold arrive. now rewrite F. }
  assert (K : calm cb (set_counter 0 (arrive b error.success) w)).
  { split; [exact T|]. eexists. split.
    - cbn [set_counter counters]. rewrite C. reflexivity.
    - now rewrite A. }
  unfold cb, completion_callback. cbn [invoke].
  destruct (decide (seed_count <= arrived b)) as [Done|Waiting].
  - exists w. split; [eapply signal_done; eassumption|].
    split; [exact T|]. now exists b.
  - destruct (decide (S (arrived b) = seed_count)) as [Last|More].
    + erewrite signal_last by eassumption.
      rewrite A in K |- *. cbn [first_error].
      unfold handle_synced_to. cbn [to_bool].
      unfold mbind, M_bind, size_. cbn [invoke]. rewrite emit_extend.
      eexists. split; [reflexivity|].
      apply calm_extend; [exact K|].
      apply Forall_singleton. cbn [harmless]. unfold fine.
      destruct (bool_decide _); auto.
    + erewrite signal_pending; [|eassumption|lia].
      eexists. split; [reflexivity|exact K].
Qed.

Ltac stays_calm :=
  repeat (apply calm_extend; [|apply Forall_singleton; now cbn]);
  try assumption.

(** Every handler, run with the completion callback bound, keeps the
    invariant. *)
Lemma handle_calm e w :
  calm cb w ->
  exists w', handle (rebind cb e) w = ok tt w' /\ calm cb w'.
Proof.
  intros K.
  destruct e as [ec node seed h|ec node seed h|ec node seed h
                |ec node seed h|ec message seed node h|ec address|size];
    cbn [rebind handle].
  - unfold handle_connected. destruct (to_bool ec).
    + emits. apply invoke_completion_calm. stays_calm.
    + emits. eexists. split; [reflexivity|]. stays_calm.
  - unfold handle_stop. destruct (to_bool ec).
    + destruct (decide (ec <> error.channel_stopped)).
      * emits. apply invoke_completion_calm. stays_calm.
      * erewrite bind_ok by reflexivity. now apply invoke_completion_calm.
    + exists w. now split.
  - unfold handle_handshake. destruct (to_bool ec).
    + emits. eexists. split; [reflexivity|]. stays_calm.
    + emits. eexists. split; [reflexivity|]. stays_calm.
  - unfold handle_send. destruct (to_bool ec).
    + emits. apply invoke_completion_calm. stays_calm.
    + exists w. now split.
  - unfold handle_receive. destruct (to_bool ec).
    + emits. apply invoke_completion_calm. stays_calm.
    + emits. erewrite bind_ok by apply for_each_emit.
      match goal with |- context [(invoke cb error.success ≫= _) ?w0] =>
        destruct (invoke_completion_calm w0) as [w1 [R K1]] end.
      * apply calm_extend; [stays_calm|].
        apply Forall_forall. intros a [address [-> _]]%list_elem_of_fmap.
        now cbn.
      * erewrite bind_ok by exact R. emits.
        eexists. split; [reflexivity|]. stays_calm.
  - unfold handle_store. destruct (to_bool ec).
    + emits. eexists. split; [reflexivity|]. stays_calm.
    + exists w. now split.
  - unfold set_hosts. eexists. split; [reflexivity|].
    destruct K as [T C]. now split.
Qed.

(** A callback that can be completed binds the completion callback. *)
Lemma registered_rebind e w :
  calm cb w -> registered e (trace w) = true -> rebind cb e = e.
Proof.
  intros [T _] R. rewrite Forall_forall in T.
  destruct e; cbn [registered] in R; cbn [rebind]; try reflexivity;
    apply bool_decide_eq_true in R; apply T in R; cbn [harmless] in R;
    now rewrite R.
Qed.

Lemma deliver_calm e w :
  calm cb w -> exists w', deliver e w = ok tt w' /\ calm cb w'.
Proof.
  intros K. unfold deliver. destruct (registered e (trace w)) eqn:R.
  - rewrite <- (registered_rebind e w K R). now apply handle_calm.
  - exists w. now split.
Qed.

Lemma for_each_deliver_calm events : forall w,
  calm cb w ->
  exists w', for_each events deliver w = ok tt w' /\ calm cb w'.
Proof.
  induction events as [|e events IH]; intros w K; cbn [for_each].
  - exists w. now split.
  - destruct (deliver_calm e w K) as [w1 [R K1]].
    destruct (IH w1 K1) as [w2 [R2 K2]].
    exists w2. split; [|exact K2].
    erewrite bind_ok by exact R. exact R2.
Qed.

End Run.

Lemma for_each_connect_extend seeds h : forall w,
  for_each seeds (fun seed => connect seed h) w =
    ok tt (extend
      (flat_map (fun seed => [act_log log_info (contacting_seed seed);
                              act_connect seed h]) seeds) w).
Proof.
  induction seeds as [|seed seeds IH]; intros w; cbn [for_each flat_map].
  - now rewrite extend_nil.
  - erewrite bind_ok by apply connect_extend.
    rewrite IH. now rewrite extend_extend.
Qed.

Lemma start_calm this hosts :
  exists w,
    start this caller_handler (fresh hosts) = ok tt w /\
    calm (completion_callback (length (seeds_ this)) hosts) w.
Proof.
  destruct this as [[|seed seeds]].
  - eexists. split; [apply start_empty|]. split.
    + cbn [trace fresh app]. repeat apply Forall_cons_2; try apply Forall_nil;
        cbn [harmless]; unfold fine; auto.
    + eexists. split; reflexivity.
  - unfold start. cbn [callable BITCOIN_ASSERT_MSG seeds_ empty].
    unfold mbind at 1 2, M_bind at 1 2, mret at 1 2, M_ret at 1 2.
    unfold mbind at 1, M_bind at 1, size_.
    unfold mbind at 1, M_bind at 1, async_parallel.
    destruct (decide (length (seed :: seeds) = 0)) as [E|_]; [discriminate E|].
    rewrite for_each_connect_extend.
    eexists. split; [reflexivity|]. split.
    + cbn [extend trace fresh app]. apply Forall_forall.
      intros a [s [_ I]]%list_elem_of_In%in_flat_map.
      destruct I as [<-|[<-|[]]]; now cbn.
    + eexists. split; reflexivity.
Qed.

Lemma harmless_seeded cb l :
  Forall (harmless cb) l -> Forall fine (seeded_of l).
Proof.
  induction 1 as [|a l H _ IH]; [constructor|].
  destruct a; cbn; try exact IH. constructor; [exact H|exact IH].
Qed.

(** C7: whatever a collaborator reports to a per-seed callback, the
    callback passes nothing but success to [handle_seeded]; so in a whole
    run the barrier never records an error, and the caller is told success
    or [error::operation_failed] only, never a seed's own error. *)
Theorem seed_errors_are_absorbed :
  (forall e w, exists w' l,
     handle (rebind caller_handler e) w = ok tt w' /\
     trace w' = trace w ++ l /\
     Forall (eq error.success) (seeded_of l)) /\
  (forall this hosts events, exists w,
     seeding this caller_handler events (fresh hosts) = ok tt w /\
     Forall (fun b => first_error b = error.success) (counters w) /\
     Forall fine (seeded_of (trace w))).
Proof.
  split.
  - intros e w.
    destruct e as [ec node seed h|ec node seed h|ec node seed h
                  |ec node seed h|ec message seed node h|ec address|size];
      cbn [rebind handle].
    + unfold handle_connected. destruct (to_bool ec); cbn [invoke]; emits;
        rewrite ?extend_extend; eexists; eexists;
        (split; [reflexivity|]); (split; [reflexivity|]);
        repeat constructor.
    + unfold handle_stop. destruct (to_bool ec).
      * destruct (decide (ec <> error.channel_stopped)); cbn [invoke].
        -- emits. rewrite ?extend_extend. eexists; eexists.
           split; [reflexivity|]. split; [reflexivity|]. repeat constructor.
        -- erewrite bind_ok by reflexivity. emits. eexists; eexists.
           split; [reflexivity|]. split; [reflexivity|]. repeat constructor.
      * exists w, []. split; [reflexivity|]. rewrite app_nil_r.
        split; [reflexivity|constructor].
    + unfold handle_handshake. destruct (to_bool ec); emits;
        rewrite ?extend_extend; eexists; eexists;
        (split; [reflexivity|]); (split; [reflexivity|]);
        repeat constructor.
    + unfold handle_send. destruct (to_bool ec).
      * cbn [invoke]. emits. rewrite ?extend_extend. eexists; eexists.
        split; [reflexivity|]. split; [reflexivity|]. repeat constructor.
      * exists w, []. split; [reflexivity|]. rewrite app_nil_r.
        split; [reflexivity|constructor].
    + unfold handle_receive. destruct (to_bool ec); cbn [invoke].
      * emits. rewrite ?extend_extend. eexists; eexists.
        split; [reflexivity|]. split; [reflexivity|]. repeat constructor.
      * emits. erewrite bind_ok by apply for_each_emit. emits.
        rewrite ?extend_extend. eexists; eexists.
        split; [reflexivity|]. split; [reflexivity|].
        rewrite !seeded_of_app. cbn.
        replace (seeded_of (map act_store (addresses message))) with
          (@nil error.error_code_t).
        -- repeat constructor.
        -- induction (addresses message); [reflexivity|assumption].
    + unfold handle_store. destruct (to_bool ec).
      * emits. eexists; eexists.
        split; [reflexivity|]. split; [reflexivity|]. constructor.
      * exists w, []. split; [reflexivity|]. rewrite app_nil_r.
        split; [reflexivity|constructor].
    + exists {| host_pool_size := size; counters := counters w;
               trace := trace w |}, [].
      split; [reflexivity|]. cbn [trace]. rewrite app_nil_r.
      split; [reflexivity|constructor].
  - intros this hosts events.
    destruct (start_calm this hosts) as [w0 [S K0]].
    destruct (for_each_deliver_calm _ _ events w0 K0) as [w [R [T [b [C F]]]]].
    exists w. split.
    + unfold seeding. erewrite bind_ok by exact S. exact R.
    + split.
      * rewrite C. now apply Forall_singleton.
      * eapply harmless_seeded, T.
Qed.

(** * Further properties of the seeder *)

(** ** What a call of a handler can do *)

(** A call of a [seeded_handler] only ever adds calls of the caller's own
    handler to the trace, leaves the host pool alone and creates no
    barrier. *)
Lemma invoke_effect h : forall ec w w',
  invoke h ec w = ok tt w' ->
  host_pool_size w' = host_pool_size w /\
  length (counters w') = length (counters w) /\
  exists l, trace w' = trace w ++ l /\
            Forall (fun a => exists r, a = act_seeded r) l.
Proof.
  induction h as [| |host_start h IH|counter n h IH]; intros ec w w';
    cbn [invoke].
  - unfold raise. discriminate.
  - rewrite emit_extend. intros [= <-]. cbn. repeat split.
    exists [act_seeded ec]. split; [reflexivity|].
    apply Forall_singleton. now exists ec.
  - unfold handle_synced_to. destruct (to_bool ec); [apply IH|].
    unfold mbind, M_bind, size_. apply IH.
  - unfold signal. destruct (counters w !! counter) as [b|] eqn:L.
    + destruct (decide (n <= arrived b)).
      * intros [= <-]. repeat split. exists []. now rewrite app_nil_r.
      * cbn [arrived]. destruct (decide (S (arrived b) = n)).
        -- intros E. apply IH in E. unfold set_counter in E.
           cbn [host_pool_size counters trace] in E.
           now rewrite length_insert in E.
        -- intros [= <-]. unfold set_counter.
           cbn [host_pool_size counters trace].
           rewrite length_insert. repeat split.
           exists []. now rewrite app_nil_r.
    + intros [= <-]. repeat split. exists []. now rewrite app_nil_r.
Qed.

Lemma stops_of_app l1 l2 : stops_of (l1 ++ l2) = stops_of l1 ++ stops_of l2.
Proof. apply omap_app. Qed.

Lemma stores_of_app l1 l2 :
  stores_of (l1 ++ l2) = stores_of l1 ++ stores_of l2.
Proof. apply omap_app. Qed.

Lemma seeded_only_stops l :
  Forall (fun a => exists r, a = act_seeded r) l -> stops_of l = [].
Proof.
  induction 1 as [|a l [r ->] _ IH]; [reflexivity|exact IH].
Qed.

Lemma seeded_only_stores l :
  Forall (fun a => exists r, a = act_seeded r) l -> stores_of l = [].
Proof.
  induction 1 as [|a l [r ->] _ IH]; [reflexivity|exact IH].
Qed.

Lemma stores_of_store l : stores_of (map act_store l) = l.
Proof. induction l as [|a l IH]; [reflexivity|]. cbn. f_equal. exact IH. Qed.

Lemma stops_of_store l : stops_of (map act_store l) = [].
Proof. induction l as [|a l IH]; [reflexivity|exact IH]. Qed.

Lemma seeded_of_store l : seeded_of (map act_store l) = [].
Proof. induction l as [|a l IH]; [reflexivity|exact IH]. Qed.

Lemma connects_of_app l1 l2 :
  connects_of (l1 ++ l2) = connects_of l1 ++ connects_of l2.
Proof. apply omap_app. Qed.

Lemma connects_of_launches seeds h :
  connects_of (launches seeds h) = map (fun seed => (seed, h)) seeds.
Proof.
  induction seeds as [|seed seeds IH]; [reflexivity|].
  cbn. f_equal. exact IH.
Qed.

Lemma seeded_of_launches seeds h : seeded_of (launches seeds h) = [].
Proof. induction seeds as [|seed seeds IH]; [reflexivity|exact IH]. Qed.

(** ** [seeder::start] with seeds *)

Lemma start_launch this h w :
  callable h = true ->
  seeds_ this <> [] ->
  start this h w =
    ok tt
      {| host_pool_size := host_pool_size w;
         counters := counters w ++
           [{| arrived := 0; first_error := error.success |}];
         trace := trace w ++
           launches (seeds_ this)
             (async_parallel_dispatch (length (counters w))
                (length (seeds_ this))
                (bind_handle_synced (host_pool_size w) h)) |}.
Proof.
  intros C N. destruct this as [[|seed seeds]]; [contradiction|].
  unfold start. rewrite C. cbn [BITCOIN_ASSERT_MSG seeds_ empty].
  unfold mbind at 1 2, M_bind at 1 2, mret at 1 2, M_ret at 1 2.
  unfold mbind at 1, M_bind at 1, size_.
  unfold mbind at 1, M_bind at 1, async_parallel.
  destruct (decide (length (seed :: seeds) = 0)) as [E|_]; [discriminate E|].
  rewrite for_each_connect_extend. reflexivity.
Qed.

(** X1: with at least one seed and a callable handler, [start] asks the
    network for one connection per seed, in the order of the list and
    duplicates included, every request binding one and the same barrier
    callback, sized to the number of seeds and holding the host count read
    at the start; it creates that one barrier and does not call the
    caller's handler itself. *)
Theorem start_launches_every_seed this h w :
  callable h = true ->
  seeds_ this <> [] ->
  exists w',
    start this h w = ok tt w' /\
    host_pool_size w' = host_pool_size w /\
    counters w' =
      counters w ++ [{| arrived := 0; first_error := error.success |}] /\
    connects_of (trace w') =
      connects_of (trace w) ++
      map (fun seed =>
             (seed,
              async_parallel_dispatch (length (counters w))
                (length (seeds_ this))
                (bind_handle_synced (host_pool_size w) h)))
        (seeds_ this) /\
    seeded_of (trace w') = seeded_of (trace w).
Proof.
  intros C N. eexists. split; [now apply start_launch|].
  cbn [host_pool_size counters trace]. repeat split.
  - now rewrite connects_of_app, connects_of_launches.
  - now rewrite seeded_of_app, seeded_of_launches, app_nil_r.
Qed.

Lemma start_launches_every_seed_witness :
  callable caller_handler = true /\
  seeds_ {| seeds_ := defaults |} <> [] /\
  exists w',
    start {| seeds_ := defaults |} caller_handler (fresh 5) = ok tt w' /\
    host_pool_size w' = 5 /\
    counters w' = [{| arrived := 0; first_error := error.success |}] /\
    connects_of (trace w') =
      map (fun seed => (seed, completion_callback 6 5)) defaults /\
    seeded_of (trace w') = [].
Proof.
  split; [reflexivity|]. split; [discriminate|].
  apply (start_launches_every_seed {| seeds_ := defaults |} caller_handler
           (fresh 5)); [reflexivity|discriminate].
Defined.

(** ** Which completions count *)

(** X2: the completion of a callback makes its handler call
    [handle_seeded] at most once, always with success: exactly once for a
    failed connection, a stop reported with an error, a failed send and any
    receive, and not at all for a connection made, any handshake result, a
    completed send, a clean stop or a store result. *)
Theorem handler_arrival_table e w :
  exists w' l,
    handle (rebind caller_handler e) w = ok tt w' /\
    trace w' = trace w ++ l /\
    seeded_of l = if arrives e then [error.success] else [].
Proof.
  destruct e as [ec node seed h|ec node seed h|ec node seed h
                |ec node seed h|ec message seed node h|ec address|size];
    cbn [rebind handle arrives].
  - unfold handle_connected. destruct (to_bool ec); cbn [invoke]; emits;
      rewrite ?extend_extend; eexists; eexists;
      (split; [reflexivity|]); split; reflexivity.
  - unfold handle_stop. destruct (to_bool ec).
    + destruct (decide (ec <> error.channel_stopped)); cbn [invoke].
      * emits. rewrite ?extend_extend. eexists; eexists.
        split; [reflexivity|]. split; reflexivity.
      * erewrite bind_ok by reflexivity. emits. eexists; eexists.
        split; [reflexivity|]. split; reflexivity.
    + exists w, []. split; [reflexivity|]. now rewrite app_nil_r.
  - unfold handle_handshake. destruct (to_bool ec); emits;
      rewrite ?extend_extend; eexists; eexists;
      (split; [reflexivity|]); split; reflexivity.
  - unfold handle_send. destruct (to_bool ec).
    + cbn [invoke]. emits. rewrite ?extend_extend. eexists; eexists.
      split; [reflexivity|]. split; reflexivity.
    + exists w, []. split; [reflexivity|]. now rewrite app_nil_r.
  - unfold handle_receive. destruct (to_bool ec); cbn [invoke].
    + emits. rewrite ?extend_extend. eexists; eexists.
      split; [reflexivity|]. split; reflexivity.
    + emits. erewrite bind_ok by apply for_each_emit. emits.
      rewrite ?extend_extend. eexists; eexists.
      split; [reflexivity|]. split; [reflexivity|].
      rewrite !seeded_of_app.
      change (seeded_of (act_log ?lv ?m :: ?l)) with (seeded_of l).
      now rewrite seeded_of_store.
  - unfold handle_store. destruct (to_bool ec).
    + emits. eexists; eexists. split; [reflexivity|]. split; reflexivity.
    + exists w, []. split; [reflexivity|]. now rewrite app_nil_r.
  - exists {| host_pool_size := size; counters := counters w;
             trace := trace w |}, [].
    split; [reflexivity|]. cbn [trace]. now rewrite app_nil_r.
Qed.

(** ** Stop requests and stores *)

Lemma after_invoke pre h ec w w' :
  invoke h ec (extend pre w) = ok tt w' ->
  exists l, trace w' = trace w ++ pre ++ l /\
            stops_of l = [] /\ stores_of l = [].
Proof.
  intros E. apply invoke_effect in E as (_ & _ & l & T & F).
  exists l. cbn [extend trace] in T. rewrite <- app_assoc in T.
  split; [exact T|]. split.
  - now apply seeded_only_stops.
  - now apply seeded_only_stores.
Qed.

Ltac after_call E :=
  apply after_invoke in E as (l & T & P & Q);
  eexists; split; [exact T|];
  rewrite stops_of_app, stores_of_app, P, Q; split; reflexivity.

(** X3: whatever [handle_seeded] is bound to, a handler asks a channel to
    stop only after a successful receive, that channel and with
    [error::channel_stopped], and hands addresses to the host pool only
    then, the message's addresses in their order; after a failed
    connection, handshake, send or receive nothing is stopped and nothing
    stored. *)
Theorem stop_and_store_only_after_receive e w w' :
  handle e w = ok tt w' ->
  exists l,
    trace w' = trace w ++ l /\
    stops_of l = stop_after e /\
    stores_of l = stored_by e.
Proof.
  destruct e as [ec node seed h|ec node seed h|ec node seed h
                |ec node seed h|ec message seed node h|ec address|size];
    cbn [handle stop_after stored_by].
  - unfold handle_connected. destruct (to_bool ec); emits.
    + intros E. after_call E.
    + rewrite ?extend_extend. intros [= <-]. eexists.
      split; [reflexivity|]. split; reflexivity.
  - unfold handle_stop. destruct (to_bool ec).
    + destruct (decide (ec <> error.channel_stopped)).
      * emits. intros E. after_call E.
      * erewrite bind_ok by reflexivity. rewrite <- (extend_nil w) at 1.
        intros E. after_call E.
    + intros [= <-]. exists []. now rewrite app_nil_r.
  - unfold handle_handshake. destruct (to_bool ec); emits;
      rewrite ?extend_extend; intros [= <-]; eexists;
      (split; [reflexivity|]); split; reflexivity.
  - unfold handle_send. destruct (to_bool ec).
    + emits. intros E. after_call E.
    + intros [= <-]. exists []. now rewrite app_nil_r.
  - unfold handle_receive. destruct (to_bool ec).
    + emits. intros E. after_call E.
    + emits. erewrite bind_ok by apply for_each_emit.
      rewrite extend_extend. unfold mbind, M_bind.
      match goal with |- context [invoke h error.success ?w0] =>
        destruct (invoke h error.success w0) as [[] w1|f] eqn:E end;
        [|discriminate].
      rewrite emit_extend. intros [= <-].
      apply after_invoke in E as (l & T & P & Q).
      eexists. split.
      * cbn [extend trace]. rewrite T. rewrite <- !app_assoc. reflexivity.
      * rewrite !stops_of_app, !stores_of_app, P, Q.
        change (stops_of (act_log ?lv ?m :: ?t)) with (stops_of t).
        change (stores_of (act_log ?lv ?m :: ?t)) with (stores_of t).
        rewrite stops_of_store, stores_of_store.
        split; [reflexivity|]. cbn. now rewrite app_nil_r.
  - unfold handle_store. destruct (to_bool ec).
    + emits. intros [= <-]. eexists.
      split; [reflexivity|]. split; reflexivity.
    + intros [= <-]. exists []. now rewrite app_nil_r.
  - unfold set_hosts. intros [= <-]. exists [].
    cbn [trace]. now rewrite app_nil_r.
Qed.

Lemma stop_and_store_only_after_receive_witness :
  exists w',
    handle (handshaken (error.other 3) 7 seedA (callback1 5)) (fresh 5)
      = ok tt w' /\
    exists l,
      trace w' = trace (fresh 5) ++ l /\
      stops_of l = [] /\ stores_of l = [].
Proof.
  eexists. split; [reflexivity|].
  apply (stop_and_store_only_after_receive
           (handshaken (error.other 3) 7 seedA (callback1 5)) (fresh 5)).
  reflexivity.
Defined.

(** ** One result per run *)

Section Steady.

Variables (seed_count hosts : nat).
Variable sizes : nat -> Prop.

Local Abbreviation cb := (completion_callback seed_count hosts).

Lemma steady_extend l w :
  steady seed_count hosts sizes w ->
  Forall (bound cb) l ->
  seeded_of l = [] ->
  steady seed_count hosts sizes (extend l w).
Proof.
  intros [T P C] B Q. split.
  - cbn [extend trace]. apply Forall_app. now split.
  - exact P.
  - cbn [extend trace counters]. rewrite seeded_of_app, Q, app_nil_r.
    exact C.
Qed.

Lemma invoke_completion_steady w :
  steady seed_count hosts sizes w ->
  exists w', invoke cb error.success w = ok tt w' /\
             steady seed_count hosts sizes w'.
Proof.
  intros K. pose proof K as [T P [b (C & F & A)]].
  assert (L : counters w !! 0 = Some b) by now rewrite C.
  assert (E : arrive b error.success =
              {| arrived := S (arrived b); first_error := error.success |}).
  { unfold arrive. now rewrite F. }
  unfold completion_callback. cbn [invoke].
  destruct (decide (seed_count <= arrived b)) as [Done|Waiting].
  - exists w. split; [eapply signal_done; eassumption|exact K].
  - destruct A as [[_ Q]|[Full _]]; [|lia].
    destruct (decide (S (arrived b) = seed_count)) as [Last|More].
    + erewrite signal_last by eassumption.
      rewrite E. cbn [first_error].
      unfold handle_synced_to. cbn [to_bool].
      unfold mbind, M_bind, size_. cbn [invoke]. rewrite emit_extend.
      eexists. split; [reflexivity|]. split.
      * cbn [extend set_counter trace]. apply Forall_app.
        split; [exact T|]. now apply Forall_singleton.
      * exact P.
      * eexists. split; [cbn; rewrite C; reflexivity|].
        split; [reflexivity|]. right. split; [cbn; lia|].
        exists (host_pool_size w). split; [exact P|].
        cbn [extend set_counter trace host_pool_size].
        rewrite seeded_of_app, Q. reflexivity.
    + erewrite signal_pending; [|eassumption|lia].
      eexists. split; [reflexivity|]. rewrite E. split.
      * exact T.
      * exact P.
      * eexists. split; [cbn; rewrite C; reflexivity|].
        split; [reflexivity|]. left. split; [cbn; lia|exact Q].
Qed.

Ltac stays_steady :=
  repeat (apply steady_extend;
          [|apply Forall_singleton; now cbn|reflexivity]);
  try assumption.

Lemma handle_steady e w :
  steady seed_count hosts sizes w ->
  pool_within sizes e ->
  exists w', handle (rebind cb e) w = ok tt w' /\
             steady seed_count hosts sizes w'.
Proof.
  intros K W.
  destruct e as [ec node seed h|ec node seed h|ec node seed h
                |ec node seed h|ec message seed node h|ec address|size];
    cbn [rebind handle].
  - unfold handle_connected. destruct (to_bool ec).
    + emits. apply invoke_completion_steady. stays_steady.
    + emits. eexists. split; [reflexivity|]. stays_steady.
  - unfold handle_stop. destruct (to_bool ec).
    + destruct (decide (ec <> error.channel_stopped)).
      * emits. apply invoke_completion_steady. stays_steady.
      * erewrite bind_ok by reflexivity. now apply invoke_completion_steady.
    + exists w. now split.
  - unfold handle_handshake. destruct (to_bool ec).
    + emits. eexists. split; [reflexivity|]. stays_steady.
    + emits. eexists. split; [reflexivity|]. stays_steady.
  - unfold handle_send. destruct (to_bool ec).
    + emits. apply invoke_completion_steady. stays_steady.
    + exists w. now split.
  - unfold handle_receive. destruct (to_bool ec).
    + emits. apply invoke_completion_steady. stays_steady.
    + emits. erewrite bind_ok by apply for_each_emit.
      match goal with |- context [(invoke cb error.success ≫= _) ?w0] =>
        destruct (invoke_completion_steady w0) as [w1 [R K1]] end.
      * apply steady_extend; [stays_steady| |apply seeded_of_store].
        apply Forall_forall. intros a [address [-> _]]%list_elem_of_fmap.
        now cbn.
      * erewrite bind_ok by exact R. emits.
        eexists. split; [reflexivity|]. stays_steady.
  - unfold handle_store. destruct (to_bool ec).
    + emits. eexists. split; [reflexivity|]. stays_steady.
    + exists w. now split.
  - unfold set_hosts. eexists. split; [reflexivity|].
    destruct K as [T P C]. split; [exact T|exact W|exact C].
Qed.

Lemma registered_bound e w :
  Forall (bound cb) (trace w) -> registered e (trace w) = true ->
  rebind cb e = e.
Proof.
  intros T R. rewrite Forall_forall in T.
  destruct e; cbn [registered] in R; cbn [rebind]; try reflexivity;
    apply bool_decide_eq_true in R; apply T in R; cbn [bound] in R;
    now rewrite R.
Qed.

Lemma deliver_steady e w :
  steady seed_count hosts sizes w ->
  pool_within sizes e ->
  exists w', deliver e w = ok tt w' /\ steady seed_count hosts sizes w'.
Proof.
  intros K W. unfold deliver. destruct (registered e (trace w)) eqn:R.
  - rewrite <- (registered_bound e w (steady_trace _ _ _ _ K) R).
    apply handle_steady; [exact K|].
    destruct e; cbn [rebind]; exact W.
  - exists w. now split.
Qed.

Lemma for_each_deliver_steady events : forall w,
  steady seed_count hosts sizes w ->
  Forall (pool_within sizes) events ->
  exists w', for_each events deliver w = ok tt w' /\
             steady seed_count hosts sizes w'.
Proof.
  induction events as [|e events IH]; intros w K W; cbn [for_each].
  - exists w. now split.
  - apply Forall_cons in W as [We W].
    destruct (deliver_steady e w K We) as [w1 [R K1]].
    destruct (IH w1 K1 W) as [w2 [R2 K2]].
    exists w2. split; [|exact K2].
    erewrite bind_ok by exact R. exact R2.
Qed.

End Steady.

Lemma bound_launches seeds h : Forall (bound h) (launches seeds h).
Proof.
  apply Forall_forall.
  intros a [s [_ I]]%list_elem_of_In%in_flat_map.
  destruct I as [<-|[<-|[]]]; now cbn.
Qed.

(** The world right after [start], with the host pool at [size]. *)
Lemma launched_steady seeds hosts (sizes : nat -> Prop) size :
  seeds <> [] ->
  sizes size ->
  steady (length seeds) hosts sizes
    {| host_pool_size := size;
       counters := [{| arrived := 0; first_error := error.success |}];
       trace := launches seeds (completion_callback (length seeds) hosts) |}.
Proof.
  intros N P. split.
  - apply bound_launches.
  - exact P.
  - eexists. split; [reflexivity|]. split; [reflexivity|].
    left. cbn [arrived trace]. split.
    + destruct seeds; [contradiction|cbn; lia].
    + apply seeded_of_launches.
Qed.

Lemma start_fresh this hosts :
  seeds_ this <> [] ->
  start this caller_handler (fresh hosts) =
    ok tt
      {| host_pool_size := hosts;
         counters := [{| arrived := 0; first_error := error.success |}];
         trace := launches (seeds_ this)
                    (completion_callback (length (seeds_ this)) hosts) |}.
Proof. intros N. now rewrite start_launch. Qed.

Lemma verdict_small hosts size :
  size <= hosts -> verdict hosts size = error.operation_failed.
Proof.
  intros H. unfold verdict.
  destruct (bool_decide (hosts < size)) eqn:D; [|reflexivity].
  apply bool_decide_eq_true in D. lia.
Qed.

Lemma verdict_large hosts size :
  hosts < size -> verdict hosts size = error.success.
Proof.
  intros H. unfold verdict.
  destruct (bool_decide (hosts < size)) eqn:D; [reflexivity|].
  apply bool_decide_eq_false in D. lia.
Qed.

(** X4: in a run over at least one seed, whatever the collaborators report
    and in whatever order, the caller's handler is called at most once: not
    at all while the barrier has counted fewer arrivals than there are
    seeds, and exactly once from the arrival that fills it, later
    completions adding nothing. *)
Theorem run_reports_at_most_once this hosts events :
  seeds_ this <> [] ->
  exists w b,
    seeding this caller_handler events (fresh hosts) = ok tt w /\
    counters w = [b] /\
    length (seeded_of (trace w)) =
      if decide (length (seeds_ this) <= arrived b) then 1 else 0.
Proof.
  intros N.
  destruct (for_each_deliver_steady (length (seeds_ this)) hosts
              (fun _ => True) events _
              (launched_steady (seeds_ this) hosts (fun _ => True) hosts N I))
    as [w [R [_ _ [b (C & _ & A)]]]].
  - apply Forall_forall. intros e _. now destruct e.
  - exists w, b. split.
    + unfold seeding. erewrite bind_ok by now apply start_fresh. exact R.
    + split; [exact C|].
      destruct (decide (length (seeds_ this) <= arrived b)) as [D|D];
        destruct A as [[A Q]|[A (size & _ & Q)]]; try lia; now rewrite Q.
Qed.

Lemma run_reports_at_most_once_witness :
  seeds_ {| seeds_ := [seedA; seedB] |} <> [] /\
  exists w b,
    seeding {| seeds_ := [seedA; seedB] |} caller_handler (own_stop 5)
      (fresh 5) = ok tt w /\
    counters w = [b] /\
    length (seeded_of (trace w)) = if decide (2 <= arrived b) then 1 else 0.
Proof.
  split; [discriminate|].
  apply (run_reports_at_most_once {| seeds_ := [seedA; seedB] |} 5
           (own_stop 5)).
  discriminate.
Defined.

(** X5: in a run over at least one seed during which the host pool never
    holds more hosts than at the start, the only result the caller can be
    told is [error::operation_failed]. *)
Theorem run_without_growth_fails this hosts events :
  seeds_ this <> [] ->
  Forall (pool_within (fun size => size <= hosts)) events ->
  exists w,
    seeding this caller_handler events (fresh hosts) = ok tt w /\
    Forall (eq error.operation_failed) (seeded_of (trace w)).
Proof.
  intros N W.
  destruct (for_each_deliver_steady (length (seeds_ this)) hosts
              (fun size => size <= hosts) events _
              (launched_steady (seeds_ this) hosts _ hosts N (le_n hosts)) W)
    as [w [R [_ _ [b (_ & _ & A)]]]].
  exists w. split.
  - unfold seeding. erewrite bind_ok by now apply start_fresh. exact R.
  - destruct A as [[_ ->]|[_ (size & S & ->)]]; [constructor|].
    apply Forall_singleton. now rewrite verdict_small.
Qed.

Lemma run_without_growth_fails_witness :
  seeds_ {| seeds_ := [seedA; seedB] |} <> [] /\
  Forall (pool_within (fun size => size <= 5)) (own_stop 5) /\
  exists w,
    seeding {| seeds_ := [seedA; seedB] |} caller_handler (own_stop 5)
      (fresh 5) = ok tt w /\
    Forall (eq error.operation_failed) (seeded_of (trace w)).
Proof.
  assert (W : Forall (pool_within (fun size => size <= 5)) (own_stop 5))
    by (repeat constructor).
  split; [discriminate|]. split; [exact W|].
  apply (run_without_growth_fails {| seeds_ := [seedA; seedB] |} 5
           (own_stop 5)); [discriminate|exact W].
Defined.

(** X6: in a run over at least one seed in which the host pool grows above
    its size at the start before any callback completes and stays above
    it, the only result the caller can be told is success, whatever errors
    the seeds report. *)
Theorem run_with_growth_succeeds this hosts size events :
  seeds_ this <> [] ->
  hosts < size ->
  Forall (pool_within (fun size' => hosts < size')) events ->
  exists w,
    seeding this caller_handler (hosts_changed size :: events) (fresh hosts)
      = ok tt w /\
    Forall (eq error.success) (seeded_of (trace w)).
Proof.
  intros N G W.
  destruct (for_each_deliver_steady (length (seeds_ this)) hosts
              (fun size' => hosts < size') events _
              (launched_steady (seeds_ this) hosts _ size N G) W)
    as [w [R [_ _ [b (_ & _ & A)]]]].
  exists w. split.
  - unfold seeding. erewrite bind_ok by now apply start_fresh.
    cbn [for_each]. erewrite bind_ok by reflexivity. exact R.
  - destruct A as [[_ ->]|[_ (size' & S & ->)]]; [constructor|].
    apply Forall_singleton. now rewrite verdict_large.
Qed.

Lemma run_with_growth_succeeds_witness :
  seeds_ {| seeds_ := [seedA; seedB] |} <> [] /\
  5 < 6 /\
  Forall (pool_within (fun size' => 5 < size')) (own_stop 5) /\
  exists w,
    seeding {| seeds_ := [seedA; seedB] |} caller_handler
      (hosts_changed 6 :: own_stop 5) (fresh 5) = ok tt w /\
    Forall (eq error.success) (seeded_of (trace w)).
Proof.
  assert (W : Forall (pool_within (fun size' => 5 < size')) (own_stop 5))
    by (repeat constructor).
  split; [discriminate|]. split; [lia|]. split; [exact W|].
  apply (run_with_growth_succeeds {| seeds_ := [seedA; seedB] |} 5 6
           (own_stop 5)); [discriminate|lia|exact W].
Defined.

(** ** Every seed refuses *)

Lemma launches_connect seeds h seed :
  seed ∈ seeds -> act_connect seed h ∈ launches seeds h.
Proof.
  intros I. apply list_elem_of_In, in_flat_map. exists seed.
  split; [now apply list_elem_of_In|]. right. now left.
Qed.

Lemma deliver_refusal h ec node seed w :
  to_bool ec = true ->
  act_connect seed h ∈ trace w ->
  deliver (connected ec node seed h) w =
    invoke h error.success
      (extend [act_log log_info (failure_contacting_seed seed ec)] w).
Proof.
  intros E R. unfold deliver. cbn [registered].
  rewrite bool_decide_eq_true_2 by exact R.
  cbn [handle]. unfold handle_connected. rewrite E.
  now erewrite bind_ok by apply log_extend.
Qed.

Lemma refused_one_by_one n hosts seeds : forall codes pool b t,
  length codes = length seeds ->
  Forall (fun ec => ec <> error.success) codes ->
  seeds <> [] ->
  arrived b + length seeds = n ->
  first_error b = error.success ->
  (forall seed, seed ∈ seeds ->
     act_connect seed (completion_callback n hosts) ∈ t) ->
  for_each (refusals (completion_callback n hosts) seeds codes) deliver
    {| host_pool_size := pool; counters := [b]; trace := t |} =
  ok tt
    {| host_pool_size := pool;
       counters := [{| arrived := n; first_error := error.success |}];
       trace := t ++ refusal_lines seeds codes ++
                [act_seeded (verdict hosts pool)] |}.
Proof.
  induction seeds as [|seed seeds IH]; intros codes pool b t L F N A Q R;
    [contradiction|].
  destruct codes as [|ec codes]; [discriminate L|].
  apply Forall_cons in F as [Fe F]. apply to_bool_true in Fe.
  injection L as L.
  assert (E : arrive b error.success =
              {| arrived := S (arrived b); first_error := error.success |}).
  { unfold arrive. now rewrite Q. }
  cbn [refusals refusal_lines zip_with for_each].
  fold (refusals (completion_callback n hosts) seeds codes).
  fold (refusal_lines seeds codes).
  destruct seeds as [|seed' seeds].
  - destruct codes; [|discriminate L].
    erewrite bind_ok; [reflexivity|].
    rewrite deliver_refusal; [|exact Fe|apply R; left].
    unfold completion_callback. cbn [invoke].
    erewrite signal_last; [|reflexivity|cbn in A; cbn; lia].
    rewrite E. cbn [first_error].
    unfold handle_synced_to. cbn [to_bool].
    unfold mbind, M_bind, size_. cbn [invoke]. rewrite emit_extend.
    unfold extend, set_counter, verdict.
    cbn [host_pool_size counters trace]. change (<[0:=?x]> [b]) with [x].
    rewrite <- app_assoc. cbn in A. repeat f_equal. lia.
  - erewrite bind_ok.
    2:{ rewrite deliver_refusal; [|exact Fe|apply R; left].
        unfold completion_callback. cbn [invoke].
        erewrite signal_pending; [|reflexivity|cbn in A; cbn; lia].
        rewrite E. unfold set_counter, extend.
        cbn [host_pool_size counters trace]. reflexivity. }
    change (<[0:=?x]> [b]) with [x].
    rewrite (IH codes pool _ _ L F).
    + now rewrite <- app_assoc.
    + discriminate.
    + cbn [arrived]. cbn in A. cbn. lia.
    + reflexivity.
    + intros s I. apply elem_of_app. left. apply R. now right.
Qed.

(** X7: when every one of the seeds (at least one) refuses the connection,
    each with an error code of its own, the run writes one failure line per
    seed, counts one arrival per seed and, on the last refusal, tells the
    caller [error::operation_failed] once; no address is stored and no
    channel is touched. *)
Theorem refused_by_every_seed this hosts codes :
  seeds_ this <> [] ->
  length codes = length (seeds_ this) ->
  Forall (fun ec => ec <> error.success) codes ->
  seeding this caller_handler
    (refusals (completion_callback (length (seeds_ this)) hosts)
       (seeds_ this) codes)
    (fresh hosts) =
  ok tt
    {| host_pool_size := hosts;
       counters := [{| arrived := length (seeds_ this);
                       first_error := error.success |}];
       trace :=
         launches (seeds_ this)
           (completion_callback (length (seeds_ this)) hosts) ++
         refusal_lines (seeds_ this) codes ++
         [act_seeded error.operation_failed] |}.
Proof.
  intros N L F. unfold seeding.
  erewrite bind_ok by now apply start_fresh.
  rewrite (refused_one_by_one (length (seeds_ this)) hosts (seeds_ this)
             codes hosts _ _ L F N);
    [|reflexivity|reflexivity|intros seed I; now apply launches_connect].
  now rewrite verdict_small.
Qed.

Lemma refused_by_every_seed_witness :
  seeds_ {| seeds_ := [seedA; seedB] |} <> [] /\
  length [error.other 1; error.channel_stopped] =
    length (seeds_ {| seeds_ := [seedA; seedB] |}) /\
  Forall (fun ec => ec <> error.success)
    [error.other 1; error.channel_stopped] /\
  seeding {| seeds_ := [seedA; seedB] |} caller_handler
    (refusals (completion_callback 2 5) [seedA; seedB]
       [error.other 1; error.channel_stopped])
    (fresh 5) =
  ok tt
    {| host_pool_size := 5;
       counters := [{| arrived := 2; first_error := error.success |}];
       trace :=
         launches [seedA; seedB] (completion_callback 2 5) ++
         refusal_lines [seedA; seedB]
           [error.other 1; error.channel_stopped] ++
         [act_seeded error.operation_failed] |}.
Proof.
  assert (F : Forall (fun ec => ec <> error.success)
                [error.other 1; error.channel_stopped])
    by (repeat constructor; discriminate).
  split; [discriminate|]. split; [reflexivity|]. split; [exact F|].
  apply (refused_by_every_seed {| seeds_ := [seedA; seedB] |} 5
           [error.other 1; error.channel_stopped]);
    [discriminate|reflexivity|exact F].
Defined.

(** ** A finished run without a result *)

Lemma deliver_registered e w :
  registered e (trace w) = true -> deliver e w = handle e w.
Proof. intros R. unfold deliver. now rewrite R. Qed.

Ltac handed_over :=
  apply bool_decide_eq_true_2; cbn [trace launches flat_map app extend];
  repeat (first [apply list_elem_of_here | apply list_elem_of_further]).

Lemma for_each_app {A} (l1 l2 : list A) (body : A -> M unit) w :
  for_each (l1 ++ l2) body w = (for_each l1 body;; for_each l2 body) w.
Proof.
  revert w. induction l1 as [|x l1 IH]; intros w; cbn [app for_each].
  - reflexivity.
  - unfold mbind, M_bind in *. destruct (body x w) as [[] w1|f]; [|reflexivity].
    apply IH.
Qed.

(** Once the three callbacks of the lost attempt are completed, no other
    completion finds a callback: only the host pool can still change. *)
Lemma idle_after_dropped seed node hosts ec more : forall pool,
  Forall (fun e => forall a, completes e = Some a ->
            a ∉ omap completes (dropped_attempt seed node hosts ec)) more ->
  exists pool',
    for_each more deliver
      {| host_pool_size := pool;
         counters := [{| arrived := 0; first_error := error.success |}];
         trace :=
           launches [seed] (callback1 hosts) ++
           [act_log log_info (get_seed_as seed node);
            act_subscribe_stop node seed (callback1 hosts);
            act_handshake_ready node seed (callback1 hosts) false;
            act_start node;
            act_log log_debug (failure_in_handshake node ec)] |} =
    ok tt
      {| host_pool_size := pool';
         counters := [{| arrived := 0; first_error := error.success |}];
         trace :=
           launches [seed] (callback1 hosts) ++
           [act_log log_info (get_seed_as seed node);
            act_subscribe_stop node seed (callback1 hosts);
            act_handshake_ready node seed (callback1 hosts) false;
            act_start node;
            act_log log_debug (failure_in_handshake node ec)] |}.
Proof.
  induction more as [|e more IH]; intros pool F; cbn [for_each].
  - now exists pool.
  - apply Forall_cons in F as [Fe F].
    assert (D : exists pool1,
      deliver e
        {| host_pool_size := pool;
           counters := [{| arrived := 0; first_error := error.success |}];
           trace :=
             launches [seed] (callback1 hosts) ++
             [act_log log_info (get_seed_as seed node);
              act_subscribe_stop node seed (callback1 hosts);
              act_handshake_ready node seed (callback1 hosts) false;
              act_start node;
              act_log log_debug (failure_in_handshake node ec)] |} =
      ok tt
        {| host_pool_size := pool1;
           counters := [{| arrived := 0; first_error := error.success |}];
           trace :=
             launches [seed] (callback1 hosts) ++
             [act_log log_info (get_seed_as seed node);
              act_subscribe_stop node seed (callback1 hosts);
              act_handshake_ready node seed (callback1 hosts) false;
              act_start node;
              act_log log_debug (failure_in_handshake node ec)] |}).
    { unfold deliver. cbn [trace].
      destruct e as [c n s h|c n s h|c n s h|c n s h|c m s n h|c a|size];
        cbn [registered];
        try (rewrite bool_decide_eq_false_2; [now exists pool|];
             intros I; eapply Fe; [reflexivity|];
             cbn [launches flat_map app] in I;
             cbn [dropped_attempt omap completes];
             repeat (apply elem_of_cons in I as [I|I];
                     [try discriminate I; rewrite I;
                      repeat (first [apply list_elem_of_here
                                    |apply list_elem_of_further])|]);
             now apply elem_of_nil in I).
      exists size. reflexivity. }
    destruct D as [pool1 D]. destruct (IH pool1 F) as [pool' R].
    exists pool'. erewrite bind_ok by exact D. exact R.
Qed.

(** C1: one seed, the connection is made, the handshake fails, the channel
    then reports a clean stop.  Every callback the seeder handed over has
    been completed, once each, so the run is over: whatever else is
    reported afterwards, short of completing one of these callbacks a
    second time, the barrier has counted no arrival and the caller's
    handler has not been called. *)
Theorem finished_run_without_completion seed node hosts ec more :
  ec <> error.success ->
  Forall (fun e => forall a, completes e = Some a ->
            a ∉ omap completes (dropped_attempt seed node hosts ec)) more ->
  exists w,
    seeding {| seeds_ := [seed] |} caller_handler
      (dropped_attempt seed node hosts ec ++ more) (fresh hosts) = ok tt w /\
    trace w =
      launches [seed] (callback1 hosts) ++
      [act_log log_info (get_seed_as seed node);
       act_subscribe_stop node seed (callback1 hosts);
       act_handshake_ready node seed (callback1 hosts) false;
       act_start node;
       act_log log_debug (failure_in_handshake node ec)] /\
    awaited (trace w) ≡ₚ omap completes (dropped_attempt seed node hosts ec) /\
    counters w = [{| arrived := 0; first_error := error.success |}] /\
    seeded_of (trace w) = [].
Proof.
  intros E F. apply to_bool_true in E.
  destruct (idle_after_dropped seed node hosts ec more hosts F) as [pool' R].
  eexists. split.
  - unfold seeding. erewrite bind_ok by (apply start_fresh; discriminate).
    rewrite for_each_app. erewrite bind_ok; [exact R|].
    unfold dropped_attempt. cbn [for_each seeds_ length].
    erewrite bind_ok.
    2:{ rewrite deliver_registered by handed_over.
        cbn [handle]. unfold handle_connected. cbn [to_bool]. emits.
        rewrite !extend_extend. reflexivity. }
    erewrite bind_ok.
    2:{ rewrite deliver_registered by handed_over.
        cbn [handle]. unfold handle_handshake. rewrite E. emits.
        rewrite !extend_extend. reflexivity. }
    erewrite bind_ok.
    2:{ rewrite deliver_registered by handed_over. reflexivity. }
    reflexivity.
  - cbn [trace counters]. split; [reflexivity|].
    split; [|split; reflexivity].
    cbn. apply perm_skip, perm_swap.
Qed.

Lemma finished_run_without_completion_witness :
  error.other 3 <> error.success /\
  Forall (fun e => forall a, completes e = Some a ->
            a ∉ omap completes (dropped_attempt seedA 7 5 (error.other 3)))
    [hosts_changed 9] /\
  exists w,
    seeding {| seeds_ := [seedA] |} caller_handler
      (dropped_attempt seedA 7 5 (error.other 3) ++ [hosts_changed 9])
      (fresh 5) = ok tt w /\
    trace w =
      launches [seedA] (callback1 5) ++
      [act_log log_info (get_seed_as seedA 7);
       act_subscribe_stop 7 seedA (callback1 5);
       act_handshake_ready 7 seedA (callback1 5) false;
       act_start 7;
       act_log log_debug (failure_in_handshake 7 (error.other 3))] /\
    awaited (trace w) ≡ₚ
      omap completes (dropped_attempt seedA 7 5 (error.other 3)) /\
    counters w = [{| arrived := 0; first_error := error.success |}] /\
    seeded_of (trace w) = [].
Proof.
  assert (F : Forall (fun e => forall a, completes e = Some a ->
                a ∉ omap completes
                      (dropped_attempt seedA 7 5 (error.other 3)))
                [hosts_changed 9]).
  { apply Forall_singleton. intros a C. discriminate C. }
  split; [discriminate|]. split; [exact F|].
  apply (finished_run_without_completion seedA 7 5 (error.other 3)
           [hosts_changed 9]); [discriminate|exact F].
Defined.
